(** * Cookie session backend ([session/sess_cookie.go])

    A shallow embedding of the cookie session store and of its provider,
    followed by the properties of the store operations, of the provider
    life cycle and of the secure-cookie codec the provider relies on.

    Go strings and [[]byte] values are byte sequences and are both modelled
    by [string]; [int] and [int64] values are modelled by [Z] (the file does
    no arithmetic on them outside the expiry test of the codec). *)

From stdpp Require Import base option countable strings gmap.
From Stdlib Require Import ZArith Lia Ascii.

Local Open Scope string_scope.
Local Open Scope Z_scope.

(** ** Go values *)

(** A value of type [interface{}].  Map keys have to be comparable in Go, so
    the embedding keeps to a closed family of comparable dynamic types; the
    nil interface is one of the values. *)
Inductive iface : Type :=
  | INil
  | IBool (b : bool)
  | IInt (n : Z)
  | IString (s : string).

#[global] Instance iface_eq_dec : EqDecision iface.
Proof. solve_decision. Defined.

Definition iface_to_sum (v : iface) : unit + bool + Z + string :=
  match v with
  | INil => inl (inl (inl tt))
  | IBool b => inl (inl (inr b))
  | IInt n => inl (inr n)
  | IString s => inr s
  end.

Definition iface_of_sum (x : unit + bool + Z + string) : iface :=
  match x with
  | inl (inl (inl _)) => INil
  | inl (inl (inr b)) => IBool b
  | inl (inr n) => IInt n
  | inr s => IString s
  end.

#[global] Instance iface_countable : Countable iface.
Proof.
  apply (inj_countable' iface_to_sum iface_of_sum).
  intros []; reflexivity.
Defined.

(** A value of type [map[interface{}]interface{}].  [None] is the nil map:
    it reads as an empty mapping, and assigning to one of its entries
    panics. *)
Abbreviation gomap := (option (gmap iface iface)).

(** The mapping a Go map value denotes. *)
Definition contents (m : gomap) : gmap iface iface := default ∅ m.

(** Go's [error] interface; the nil error is [None] in [option error]. *)
Inductive error : Type :=
  | KeySizeError (k : nat)
  | DecodeError (msg : string)
  | EncodeError (msg : string)
  | SyntaxError (msg : string).

(** The outcome of a call that may hit a run-time panic. *)
Inductive outcome (A : Type) : Type :=
  | Done (a : A)
  | Panic (msg : string).
Arguments Done {A} a.
Arguments Panic {A} msg.

(** ** Library collaborators *)

Module aes.

(** The [cipher.Block] built by [aes.NewCipher]; it is determined by its
    key. *)
Record Block : Type := { key : string }.

(** [aes.NewCipher]: keys of 16, 24 or 32 bytes select AES-128, AES-192 or
    AES-256; any other length is a [KeySizeError]. *)
Definition NewCipher (k : string) : option Block * option error :=
  let n := String.length k in
  if (Nat.eqb n 16 || Nat.eqb n 24 || Nat.eqb n 32)%bool
  then (Some {| key := k |}, None)
  else (None, Some (KeySizeError n)).

End aes.

Module http.

(** The fields of [http.Cookie] that have a textual or numeric zero value;
    [SessionRelease] leaves [Domain] at its zero value. *)
Record Cookie : Type := {
  Name : string;
  Value : string;
  Path : string;
  Domain : string;
  MaxAge : Z;
  Secure : bool;
  HttpOnly : bool
}.

(** The response as this backend sees it: the cookies handed to
    [http.SetCookie] so far, oldest first. *)
Abbreviation ResponseWriter := (list Cookie).

Definition SetCookie (w : ResponseWriter) (cookie : Cookie) : ResponseWriter :=
  w ++ [cookie].

End http.

(** ** The cookie session store *)

(** [st.lock] is left out: every method takes it on entry and gives it back
    on return, so in the sequential reading of one call it is as it was. *)
Record CookieSessionStore : Type := {
  sid : string;
  values : gomap
}.

(** [Set]: [st.values[key] = value]. *)
Definition Set_ (st : CookieSessionStore) (key value : iface)
  : outcome (CookieSessionStore * option error) :=
  match values st with
  | None => Panic "assignment to entry in nil map"
  | Some m => Done ({| sid := sid st; values := Some (<[key := value]> m) |}, None)
  end.

(** [Get]: the comma-ok lookup, nil when the key is not bound. *)
Definition Get (st : CookieSessionStore) (key : iface) : iface :=
  match contents (values st) !! key with
  | Some v => v
  | None => INil
  end.

(** [Delete]: [delete(st.values, key)], which does nothing on a nil map. *)
Definition Delete (st : CookieSessionStore) (key : iface)
  : CookieSessionStore * option error :=
  ({| sid := sid st; values := delete key <$> values st |}, None).

(** [Flush]: a fresh map replaces the old one. *)
Definition Flush (st : CookieSessionStore) : CookieSessionStore * option error :=
  ({| sid := sid st; values := Some ∅ |}, None).

Definition SessionID (st : CookieSessionStore) : string := sid st.

(** ** The provider *)

Record cookieConfig : Type := {
  SecurityKey : string;
  BlockKey : string;
  SecurityName : string;
  CookieName : string;
  Secure : bool;
  Maxage : Z
}.

(** [&cookieConfig{}] *)
Definition zero_cookieConfig : cookieConfig :=
  {| SecurityKey := ""; BlockKey := ""; SecurityName := ""; CookieName := "";
     Secure := false; Maxage := 0 |}.

Definition set_BlockKey (c : cookieConfig) (k : string) : cookieConfig :=
  {| SecurityKey := SecurityKey c; BlockKey := k; SecurityName := SecurityName c;
     CookieName := CookieName c; Secure := Secure c; Maxage := Maxage c |}.

Definition set_SecurityName (c : cookieConfig) (n : string) : cookieConfig :=
  {| SecurityKey := SecurityKey c; BlockKey := BlockKey c; SecurityName := n;
     CookieName := CookieName c; Secure := Secure c; Maxage := Maxage c |}.

(** [config] is a pointer and [block] an interface value: both are nil in
    the provider the package starts with. *)
Record CookieProvider : Type := {
  maxlifetime : Z;
  config : option cookieConfig;
  block : option aes.Block
}.

(** [var cookiepder = &CookieProvider{}] *)
Definition cookiepder0 : CookieProvider :=
  {| maxlifetime := 0; config := None; block := None |}.

Section Provider.

(** The helpers of the package that this file calls, and the library
    functions whose result it only passes on. *)
Variable encodeCookie :
  option aes.Block → string → string → gomap → string * option error.
Variable decodeCookie :
  option aes.Block → string → string → string → Z → gomap * option error.
Variable QueryEscape : string → string.
Variable Unmarshal : string → cookieConfig → cookieConfig * option error.
Context {entropy : Type}.
Variable generateRandomKey : nat → entropy → string * entropy.

(** [SessionRelease] reads the package-level provider [cookiepder]. *)
Definition SessionRelease (cookiepder : CookieProvider)
    (st : CookieSessionStore) (w : http.ResponseWriter)
  : outcome http.ResponseWriter :=
  match config cookiepder with
  | None => Panic "nil pointer dereference"
  | Some cfg =>
      let '(str, err) :=
        encodeCookie (block cookiepder) (SecurityKey cfg) (SecurityName cfg)
                     (values st) in
      match err with
      | Some _ => Done w
      | None =>
          Done (http.SetCookie w
                  {| http.Name := CookieName cfg;
                     http.Value := QueryEscape str;
                     http.Path := "/";
                     http.Domain := "";
                     http.MaxAge := Maxage cfg;
                     http.Secure := Secure cfg;
                     http.HttpOnly := true |})
      end
  end.

(** [SessionInit], threading the entropy the key generator draws from.
    The fresh configuration is stored before it is filled, and the
    result of [aes.NewCipher] is stored before its error is looked at. *)
Definition SessionInit (pder : CookieProvider) (maxlifetime' : Z)
    (config' : string) (rnd : entropy)
  : CookieProvider * entropy * option error :=
  let '(cfg, err) := Unmarshal config' zero_cookieConfig in
  match err with
  | Some e =>
      ({| maxlifetime := maxlifetime pder; config := Some cfg;
          block := block pder |}, rnd, Some e)
  | None =>
      let '(cfg, rnd) :=
        if decide (BlockKey cfg = "")
        then let '(k, rnd) := generateRandomKey 16 rnd in (set_BlockKey cfg k, rnd)
        else (cfg, rnd) in
      let '(cfg, rnd) :=
        if decide (SecurityName cfg = "")
        then let '(n, rnd) := generateRandomKey 20 rnd in (set_SecurityName cfg n, rnd)
        else (cfg, rnd) in
      let '(blk, err) := aes.NewCipher (BlockKey cfg) in
      match err with
      | Some e =>
          ({| maxlifetime := maxlifetime pder; config := Some cfg; block := blk |},
           rnd, Some e)
      | None =>
          ({| maxlifetime := maxlifetime'; config := Some cfg; block := blk |},
           rnd, None)
      end
  end.

(** Provider states linked by a run of [SessionInit] calls that all
    returned an error. *)
Inductive failed_inits : CookieProvider → CookieProvider → Prop :=
  | failed_inits_nil pder : failed_inits pder pder
  | failed_inits_cons pder maxlifetime' config' rnd pder' rnd' e pder'' :
      SessionInit pder maxlifetime' config' rnd = (pder', rnd', Some e) →
      failed_inits pder' pder'' →
      failed_inits pder pder''.

(** [SessionRead]; the [SessionStore] it returns is an interface value,
    nil being [None]. *)
Definition SessionRead (pder : CookieProvider) (sid' : string)
  : outcome (option CookieSessionStore * option error) :=
  match config pder with
  | None => Panic "nil pointer dereference"
  | Some cfg =>
      let '(maps, _) :=
        decodeCookie (block pder) (SecurityKey cfg) (SecurityName cfg) sid'
                     (maxlifetime pder) in
      let maps := match maps with None => Some ∅ | Some m => Some m end in
      Done (Some {| sid := sid'; values := maps |}, None)
  end.

End Provider.

Definition SessionExist (pder : CookieProvider) (sid' : string) : bool := true.

Definition SessionRegenerate (pder : CookieProvider) (oldsid sid' : string)
  : option CookieSessionStore * option error := (None, None).

Definition SessionDestroy (pder : CookieProvider) (sid' : string) : option error := None.

Definition SessionGC (pder : CookieProvider) : CookieProvider := pder.

Definition SessionAll (pder : CookieProvider) : Z := 0.

Definition SessionUpdate (pder : CookieProvider) (sid' : string) : option error := None.

(** ** The secure-cookie codec *)

Module SecureCookie.

(** Modelled from the spec: the building blocks of the secure-cookie codec
    ([encodeCookie] and [decodeCookie] live in a file of the package that
    is not part of the sources at hand).  The spec names them without
    fixing them: a serialisation of the value mapping, a block cipher run
    in a mode with an initialisation vector that is put in front of the
    ciphertext, a keyed authentication tag over the encrypted payload,
    the security name and the timestamp, and a URL-safe framing of
    timestamp, tag and ciphertext. *)
Record primitives : Type := {
  serialize : gmap iface iface → option string;
  deserialize : string → option (gmap iface iface);
  encrypt : aes.Block → string → string → option string;
  decrypt : aes.Block → string → option string;
  mac : string → string → Z → string → string;
  pack : Z → string → string → string;
  unpack : string → option (Z * string * string)
}.

(** Modelled from the spec: decoding mirrors encoding, layer by layer. *)
Record lawful (P : primitives) : Prop := {
  deserialize_serialize V b :
    serialize P V = Some b → deserialize P b = Some V;
  decrypt_encrypt blk iv b c :
    encrypt P blk iv b = Some c → decrypt P blk c = Some b;
  unpack_pack ts tag c :
    unpack P (pack P ts tag c) = Some (ts, tag, c)
}.

Section Codec.

Variable P : primitives.

(** The clock reading, in seconds, at the time of the call. *)
Variable now : Z.

(** Modelled from the spec: [encode(cipher, securityKey, securityName,
    values)], missing from the sources.  Serialise, encrypt under a
    fresh initialisation vector [iv], tag the encrypted payload with the
    security name and the current timestamp under [securityKey], and
    frame timestamp, tag and ciphertext as one URL-safe string.  It
    fails when serialisation fails or the cipher rejects its input; a
    nil cipher counts as a cipher that rejects. *)
Definition encodeCookie (iv : string) (blk : option aes.Block)
    (securityKey securityName : string) (vals : gomap)
  : string * option error :=
  match serialize P (contents vals) with
  | None => ("", Some (EncodeError "unsupported value"))
  | Some b =>
      match blk ≫= (λ k, encrypt P k iv b) with
      | None => ("", Some (EncodeError "cipher"))
      | Some c =>
          (pack P now (mac P securityKey securityName now c) c, None)
      end
  end.

(** Modelled from the spec: the first test of [decode], the received tag
    against the tag derived again from the received timestamp, the
    security name and the ciphertext. *)
Definition authenticated (securityKey securityName cookie : string) : bool :=
  match unpack P cookie with
  | Some (ts, tag, c) => bool_decide (mac P securityKey securityName ts c = tag)
  | None => false
  end.

(** Modelled from the spec: the second test of [decode],
    [now - timestamp <= maxAgeSeconds]. *)
Definition unexpired (cookie : string) (maxAgeSeconds : Z) : bool :=
  match unpack P cookie with
  | Some (ts, _, _) => bool_decide (now - ts ≤ maxAgeSeconds)%Z
  | None => false
  end.

(** Modelled from the spec: [decode(cipher, securityKey, securityName,
    cookieString, maxAgeSeconds)], missing from the sources.  The tag
    is checked first, then the age, and only then is the payload
    decrypted and deserialised; whatever goes wrong, the cookie is
    invalid.  An invalid cookie gives the nil map (the empty mapping
    that [SessionRead] tests for) together with the error that
    [SessionRead] drops. *)
Definition decodeCookie (blk : option aes.Block)
    (securityKey securityName cookie : string) (maxAgeSeconds : Z)
  : gomap * option error :=
  match unpack P cookie with
  | None => (None, Some (DecodeError "invalid value"))
  | Some (ts, tag, c) =>
      if bool_decide (mac P securityKey securityName ts c = tag) then
        if bool_decide (now - ts ≤ maxAgeSeconds)%Z then
          match (blk ≫= (λ k, decrypt P k c)) ≫= deserialize P with
          | Some V => (Some V, None)
          | None => (None, Some (DecodeError "corrupt payload"))
          end
        else (None, Some (DecodeError "expired timestamp"))
      else (None, Some (DecodeError "the value is not valid"))
  end.

End Codec.


End SecureCookie.

(** ** A plain instance of the codec building blocks

    It has no cryptographic strength; it is there to run the codec on
    concrete inputs. *)

Module Plain.

Fixpoint bits_of_pos (p : positive) : string :=
  match p with
  | xH => ""
  | xO q => String "0"%char (bits_of_pos q)
  | xI q => String "1"%char (bits_of_pos q)
  end.

Fixpoint pos_of_bits (s : string) : positive :=
  match s with
  | "" => xH
  | String c r => if Ascii.eqb c "1"%char then xI (pos_of_bits r) else xO (pos_of_bits r)
  end.

(** [strip n s] drops the first [n] bytes of [s], if it has that many. *)
Fixpoint strip (n : nat) (s : string) : option string :=
  match n with
  | O => Some s
  | S n' =>
      match s with
      | "" => None
      | String _ r => strip n' r
      end
  end.

(** The initialisation vector is one cipher block long. *)
Definition BlockSize : nat := 16.

Definition seal (blk : aes.Block) (iv b : string) : option string :=
  if Nat.eqb (String.length iv) BlockSize then Some (iv +:+ b) else None.

Definition open (blk : aes.Block) (c : string) : option string :=
  strip BlockSize c.

Definition tag_of (securityKey securityName : string) (ts : Z) (c : string) : string :=
  securityKey +:+ "|" +:+ securityName +:+ "|" +:+ bits_of_pos (encode ts) +:+ "|" +:+ c.

Definition prims : SecureCookie.primitives :=
  {| SecureCookie.serialize V := Some (bits_of_pos (encode V));
     SecureCookie.deserialize b := decode (pos_of_bits b);
     SecureCookie.encrypt := seal;
     SecureCookie.decrypt := open;
     SecureCookie.mac := tag_of;
     SecureCookie.pack ts tag c := bits_of_pos (encode (ts, tag, c));
     SecureCookie.unpack s := decode (pos_of_bits s) |}.

(** A configuration reader that knows one payload, the empty JSON object,
    which sets no field; and a key generator that repeats one byte. *)
Definition Unmarshal (s : string) (c : cookieConfig) : cookieConfig * option error :=
  if decide (s = "{}")
  then (c, None)
  else (c, Some (SyntaxError "invalid character")).

Fixpoint replicate_byte (n : nat) (c : Ascii.ascii) : string :=
  match n with
  | O => ""
  | S n' => String c (replicate_byte n' c)
  end.

Definition generateRandomKey (n : nat) (seed : nat) : string * nat :=
  (replicate_byte n (Ascii.ascii_of_nat (65 + seed)), S seed).

(** A provider, a session and its cookie to run the development on. *)
Definition cipher : option aes.Block := Some {| aes.key := "0123456789abcdef" |}.

Definition iv : string := "abcdefghijklmnop".

Definition session : gomap := Some {[ IString "uid" := IString "42" ]}.

Definition cookie : string :=
  (SecureCookie.encodeCookie prims 1000 iv cipher "k1" "s" session).1.

Definition pder : CookieProvider :=
  {| maxlifetime := 60;
     config := Some {| SecurityKey := "k1"; BlockKey := "0123456789abcdef";
                       SecurityName := "s"; CookieName := "sess";
                       Secure := false; Maxage := 3600 |};
     block := cipher |}.


End Plain.

(** ** Runs of store operations *)

(** The calls a request handler makes on its store between [SessionRead]
    and [SessionRelease]. *)
Inductive store_op : Type :=
  | OpSet (key value : iface)
  | OpDelete (key : iface)
  | OpFlush.

Definition apply_op (st : CookieSessionStore) (o : store_op)
  : outcome (CookieSessionStore * option error) :=
  match o with
  | OpSet key value => Set_ st key value
  | OpDelete key => Done (Delete st key)
  | OpFlush => Done (Flush st)
  end.

(** The calls are made in order on the one store; a panic ends the run.
    The errors the calls returned are collected, first call first. *)
Fixpoint run_ops (st : CookieSessionStore) (ops : list store_op)
  : outcome (CookieSessionStore * list (option error)) :=
  match ops with
  | [] => Done (st, [])
  | o :: ops' =>
      match apply_op st o with
      | Panic msg => Panic msg
      | Done (st', e) =>
          match run_ops st' ops' with
          | Panic msg => Panic msg
          | Done (st'', es) => Done (st'', e :: es)
          end
      end
  end.

(** The same calls read as updates of a finite map. *)
Definition map_op (m : gmap iface iface) (o : store_op) : gmap iface iface :=
  match o with
  | OpSet key value => <[key := value]> m
  | OpDelete key => delete key m
  | OpFlush => ∅
  end.

(** * Properties *)

(** ** Store operations *)

Implicit Types (st : CookieSessionStore) (m : gmap iface iface) (k v : iface).
Implicit Types (bk : aes.Block).

Lemma Get_lookup st k : Get st k = default INil (contents (values st) !! k).
Proof. unfold Get. by destruct (contents (values st) !! k). Qed.

Lemma Get_unbound st k : contents (values st) !! k = None → Get st k = INil.
Proof. intros H. by rewrite Get_lookup, H. Qed.

Lemma Get_nil_map st k : values st = None → Get st k = INil.
Proof. intros H. apply Get_unbound. by rewrite H. Qed.

Lemma Set_allocated st m k v :
  values st = Some m →
  Set_ st k v = Done ({| sid := sid st; values := Some (<[k := v]> m) |}, None).
Proof. intros H. unfold Set_. by rewrite H. Qed.

Lemma Set_nil_map st k v : values st = None → ∃ msg, Set_ st k v = Panic msg.
Proof. intros H. unfold Set_. rewrite H. eauto. Qed.

Lemma contents_Delete st k :
  contents (values (Delete st k).1) = delete k (contents (values st)).
Proof.
  destruct st as [s [m|]]; simpl; [done|].
  symmetry. apply delete_empty.
Qed.

Lemma Delete_unbound st k :
  contents (values st) !! k = None → (Delete st k).1 = st.
Proof.
  destruct st as [s [m|]]; simpl; intros H; [|done].
  by rewrite delete_id.
Qed.

Lemma Get_Delete_same st k : Get (Delete st k).1 k = INil.
Proof. apply Get_unbound. rewrite contents_Delete. apply lookup_delete_eq. Qed.

Lemma Get_Delete_other st k k' : k' ≠ k → Get (Delete st k).1 k' = Get st k'.
Proof.
  intros Hk. rewrite !Get_lookup, contents_Delete. by rewrite lookup_delete_ne.
Qed.

(** The stores the package builds keep an allocated map: [Set], [Delete] and
    [Flush] never turn it into the nil map. *)
Lemma Set_keeps_allocated st k v st' e :
  Set_ st k v = Done (st', e) → is_Some (values st').
Proof.
  unfold Set_. destruct (values st); [|done].
  intros [= <- _]. simpl. eauto.
Qed.

Lemma Delete_keeps_allocated st k :
  is_Some (values st) → is_Some (values (Delete st k).1).
Proof. intros [m H]. simpl. rewrite H. simpl. eauto. Qed.

Lemma Flush_allocated st : is_Some (values (Flush st).1).
Proof. simpl. eauto. Qed.

Example Set_then_Get :
  ∃ st', Set_ {| sid := "s"; values := Some ∅ |} (IString "uid") (IString "42")
         = Done (st', None)
       ∧ Get st' (IString "uid") = IString "42"
       ∧ Get st' (IString "gid") = INil.
Proof. eexists. split; [reflexivity|]. split; reflexivity. Qed.

(** C8.  On a store whose map is allocated (every store made by
    [SessionRead] is, and the store operations keep it so), [Set] with key
    [k] and value [v] returns a nil error and binds [k] to [v], inserting or
    overwriting, so that [Get] of [k] then returns [v]; the other keys read
    as before and the identifier is kept.  [Get] of a key that is not bound
    returns the nil sentinel. *)
Theorem Set_Get_law st m k v :
  values st = Some m →
  ∃ st',
    Set_ st k v = Done (st', None)
    ∧ values st' = Some (<[k := v]> m)
    ∧ sid st' = sid st
    ∧ Get st' k = v
    ∧ (∀ k', k' ≠ k → Get st' k' = Get st k')
    ∧ (∀ k', m !! k' = None → Get st k' = INil)
    ∧ Get (Delete st' k).1 k = INil.
Proof.
  intros Hm. eexists. split; [by apply Set_allocated|].
  split; [done|]. split; [done|]. split; [|split; [|split]].
  - rewrite Get_lookup. simpl. by rewrite lookup_insert_eq.
  - intros k' Hk. rewrite !Get_lookup. simpl. rewrite Hm. simpl.
    by rewrite lookup_insert_ne.
  - intros k' Hk. apply Get_unbound. by rewrite Hm.
  - apply Get_Delete_same.
Qed.

Lemma Set_Get_law_witness :
  ∃ st',
    Set_ {| sid := "s"; values := Some {[ IString "uid" := IInt 7 ]} |}
         (IString "uid") (IString "42") = Done (st', None)
    ∧ Get st' (IString "uid") = IString "42".
Proof.
  destruct (Set_Get_law
              {| sid := "s"; values := Some {[ IString "uid" := IInt 7 ]} |}
              {[ IString "uid" := IInt 7 ]} (IString "uid") (IString "42")
              eq_refl) as (st' & H1 & _ & _ & H2 & _).
  exists st'. split; [exact H1 | exact H2].
Defined.

(** C9.  [Delete] of key [k] returns a nil error and removes the binding of
    [k], so that [Get] of [k] returns the nil sentinel, while the other keys
    read as before; when [k] is not bound the store is left as it was.
    [Flush] returns a nil error and puts a fresh, empty map in place of the
    old one, so that [Get] returns the nil sentinel for every key. *)
Theorem Delete_Flush_law st k :
  (Delete st k).2 = None
  ∧ contents (values (Delete st k).1) = delete k (contents (values st))
  ∧ sid (Delete st k).1 = sid st
  ∧ Get (Delete st k).1 k = INil
  ∧ (∀ k', k' ≠ k → Get (Delete st k).1 k' = Get st k')
  ∧ (contents (values st) !! k = None → (Delete st k).1 = st)
  ∧ Flush st = ({| sid := sid st; values := Some ∅ |}, None)
  ∧ (∀ k', Get (Flush st).1 k' = INil).
Proof.
  split; [done|]. split; [apply contents_Delete|]. split; [done|].
  split; [apply Get_Delete_same|]. split; [intros k'; apply Get_Delete_other|].
  split; [apply Delete_unbound|]. split; [done|].
  intros k'. apply Get_unbound. simpl. apply lookup_empty.
Qed.

Lemma Delete_Flush_law_witness :
  (Delete {| sid := "s"; values := Some {[ IInt 1 := IBool true ]} |} (IInt 2)).1
  = {| sid := "s"; values := Some {[ IInt 1 := IBool true ]} |}.
Proof.
  apply (Delete_Flush_law
           {| sid := "s"; values := Some {[ IInt 1 := IBool true ]} |} (IInt 2)).
  reflexivity.
Defined.

(** C10.  The value [Get] returns for a key that is not bound is the nil
    interface, which is also a value that [Set] stores: after [Set] of key
    [k] to nil the key is bound (to nil) and [Get] of [k] returns nil, the
    very answer it gives once [k] has been deleted. *)
Theorem Get_nil_is_ambiguous st m k :
  values st = Some m →
  ∃ st',
    Set_ st k INil = Done (st', None)
    ∧ contents (values st') !! k = Some INil
    ∧ Get st' k = INil
    ∧ contents (values (Delete st k).1) !! k = None
    ∧ Get (Delete st k).1 k = Get st' k.
Proof.
  intros Hm. eexists. split; [by apply Set_allocated|].
  split; [apply lookup_insert_eq|].
  assert (Hg : ∀ s', Get {| sid := s'; values := Some (<[k := INil]> m) |} k = INil).
  { intros s'. rewrite Get_lookup. simpl. by rewrite lookup_insert_eq. }
  split; [apply Hg|]. split.
  - rewrite contents_Delete. apply lookup_delete_eq.
  - by rewrite Get_Delete_same, Hg.
Qed.

Lemma Get_nil_is_ambiguous_witness :
  ∃ st',
    Set_ {| sid := ""; values := Some ∅ |} (IString "k") INil = Done (st', None)
    ∧ contents (values st') !! IString "k" = Some INil
    ∧ Get st' (IString "k") = INil.
Proof.
  destruct (Get_nil_is_ambiguous {| sid := ""; values := Some ∅ |} ∅ (IString "k")
              eq_refl) as (st' & H1 & H2 & H3 & _).
  exists st'. split; [exact H1 | split; [exact H2 | exact H3]].
Defined.

(** ** Capability methods without server-side state *)

(** C7.  Whatever the provider and the identifiers, [SessionExist] returns
    true, [SessionAll] returns 0, [SessionDestroy] and [SessionUpdate]
    return a nil error, and [SessionRegenerate] returns a nil store with a
    nil error; [SessionGC] leaves the provider as it is. *)
Theorem noop_capability_contract (pder : CookieProvider) (oldsid sid' : string) :
  SessionExist pder sid' = true
  ∧ SessionAll pder = 0
  ∧ SessionDestroy pder sid' = None
  ∧ SessionUpdate pder sid' = None
  ∧ SessionRegenerate pder oldsid sid' = (None, None)
  ∧ SessionGC pder = pder.
Proof. repeat split. Qed.

(** ** The provider *)

Section ProviderFacts.

Context {entropy : Type}.
Variable Unmarshal : string → cookieConfig → cookieConfig * option error.
Variable generateRandomKey : nat → entropy → string * entropy.
Variable decode :
  option aes.Block → string → string → string → Z → gomap * option error.

Local Abbreviation Init := (SessionInit Unmarshal generateRandomKey).
Local Abbreviation failed := (failed_inits Unmarshal generateRandomKey).

Lemma NewCipher_accepts key :
  (aes.NewCipher key).2 = None →
  aes.NewCipher key = (Some {| aes.key := key |}, None).
Proof. unfold aes.NewCipher. by case_match. Qed.

Lemma NewCipher_rejects key e :
  (aes.NewCipher key).2 = Some e →
  aes.NewCipher key = (None, Some (KeySizeError (String.length key))).
Proof. unfold aes.NewCipher. by case_match. Qed.

Lemma NewCipher_16 key :
  String.length key = 16%nat →
  aes.NewCipher key = (Some {| aes.key := key |}, None).
Proof. unfold aes.NewCipher. by intros ->. Qed.

(** [SessionInit] stores a configuration whatever its result. *)
Lemma SessionInit_config pder ml json rnd :
  is_Some (config (Init pder ml json rnd).1.1).
Proof.
  unfold SessionInit. repeat (case_match; simplify_eq/=); eauto.
Qed.

(** It stores its first argument exactly when it returns a nil error. *)
Lemma SessionInit_maxlifetime pder ml json rnd :
  maxlifetime (Init pder ml json rnd).1.1
  = match (Init pder ml json rnd).2 with
    | None => ml
    | Some _ => maxlifetime pder
    end.
Proof.
  unfold SessionInit. repeat (case_match; simplify_eq/=); eauto.
Qed.

Lemma failed_inits_maxlifetime pder pder' :
  failed pder pder' → maxlifetime pder' = maxlifetime pder.
Proof.
  induction 1 as [|pder ml json rnd pder' rnd' e pder'' Hstep _ IH]; [done|].
  rewrite IH. pose proof (SessionInit_maxlifetime pder ml json rnd) as H.
  by rewrite Hstep in H.
Qed.

Lemma failed_inits_config pder pder' :
  failed pder pder' → is_Some (config pder) → is_Some (config pder').
Proof.
  induction 1 as [|pder ml json rnd pder' rnd' e pder'' Hstep _ IH]; [done|].
  intros _. apply IH.
  pose proof (SessionInit_config pder ml json rnd) as H.
  by rewrite Hstep in H.
Qed.

(** What [SessionRead] returns once a configuration is in place. *)
Lemma SessionRead_configured pder cfg sid' :
  config pder = Some cfg →
  SessionRead decode pder sid'
  = Done (Some {| sid := sid';
                  values := Some (contents (decode (block pder) (SecurityKey cfg)
                                              (SecurityName cfg) sid'
                                              (maxlifetime pder)).1) |},
          None).
Proof.
  intros Hc. unfold SessionRead. rewrite Hc.
  destruct (decode _ _ _ _ _) as [[m|] e]; reflexivity.
Qed.

(** Before any [SessionInit] the provider has no configuration to read. *)
Lemma SessionRead_unconfigured sid' :
  ∃ msg, SessionRead decode cookiepder0 sid' = Panic msg.
Proof. unfold SessionRead. simpl. eauto. Qed.

(** C3.  On a provider that holds a configuration (any call of
    [SessionInit] leaves one), [SessionRead] of any string [sid'] returns
    a store, not nil, together with a nil error, whatever [decodeCookie]
    answers; the store's map is allocated, it holds what was decoded, it
    is empty when the decoder returned no map, and [SessionID] of the
    store is [sid']. *)
Theorem SessionRead_total pder cfg sid' :
  config pder = Some cfg →
  ∃ st,
    SessionRead decode pder sid' = Done (Some st, None)
    ∧ SessionID st = sid'
    ∧ is_Some (values st)
    ∧ contents (values st)
      = contents (decode (block pder) (SecurityKey cfg) (SecurityName cfg) sid'
                    (maxlifetime pder)).1
    ∧ ((decode (block pder) (SecurityKey cfg) (SecurityName cfg) sid'
          (maxlifetime pder)).1 = None →
       values st = Some ∅).
Proof.
  intros Hc. eexists. split; [by apply SessionRead_configured|].
  split; [done|]. split; [simpl; eauto|]. split; [done|].
  simpl. by intros ->.
Qed.

(** C6.  After a call of [SessionInit] with first argument [ml] that
    returned a nil error, and after any further calls of [SessionInit]
    that returned an error, the provider holds a configuration [cfg] and
    [SessionRead] of any [sid'] hands [decodeCookie] the cipher, the
    security key and name of [cfg], the string [sid'], and [ml] as the
    maximum age, whatever the [Maxage] field of the configuration is. *)
Theorem SessionRead_max_age pder0 ml json rnd pder1 rnd1 pder2 sid' :
  Init pder0 ml json rnd = (pder1, rnd1, None) →
  failed pder1 pder2 →
  maxlifetime pder2 = ml
  ∧ ∃ cfg,
      config pder2 = Some cfg
      ∧ SessionRead decode pder2 sid'
        = Done (Some {| sid := sid';
                        values := Some (contents (decode (block pder2)
                                           (SecurityKey cfg) (SecurityName cfg)
                                           sid' ml).1) |},
                None).
Proof.
  intros Hinit Hfail.
  assert (Hml : maxlifetime pder2 = ml).
  { rewrite (failed_inits_maxlifetime _ _ Hfail).
    pose proof (SessionInit_maxlifetime pder0 ml json rnd) as H.
    by rewrite Hinit in H. }
  split; [exact Hml|].
  destruct (failed_inits_config _ _ Hfail) as [cfg Hcfg].
  { pose proof (SessionInit_config pder0 ml json rnd) as H.
    by rewrite Hinit in H. }
  exists cfg. split; [exact Hcfg|].
  by rewrite (SessionRead_configured _ _ _ Hcfg), Hml.
Qed.

(** The configuration [SessionInit] settles on, from the parsed one: an
    empty block key is replaced by 16 generated bytes, then an empty
    security name by 20 generated bytes. *)
Lemma SessionInit_parsed pder ml json rnd cfg0 :
  Unmarshal json zero_cookieConfig = (cfg0, None) →
  let rnd1 := if decide (BlockKey cfg0 = "")
              then (generateRandomKey 16 rnd).2 else rnd in
  let cfg :=
    {| SecurityKey := SecurityKey cfg0;
       BlockKey := if decide (BlockKey cfg0 = "")
                   then (generateRandomKey 16 rnd).1 else BlockKey cfg0;
       SecurityName := if decide (SecurityName cfg0 = "")
                       then (generateRandomKey 20 rnd1).1 else SecurityName cfg0;
       CookieName := CookieName cfg0;
       Secure := Secure cfg0;
       Maxage := Maxage cfg0 |} in
  Init pder ml json rnd
  = ({| maxlifetime := match (aes.NewCipher (BlockKey cfg)).2 with
                       | None => ml
                       | Some _ => maxlifetime pder
                       end;
        config := Some cfg;
        block := (aes.NewCipher (BlockKey cfg)).1 |},
     if decide (SecurityName cfg0 = "")
     then (generateRandomKey 20 rnd1).2 else rnd1,
     (aes.NewCipher (BlockKey cfg)).2).
Proof.
  intros Hparse. unfold SessionInit. rewrite Hparse.
  destruct cfg0 as [sk bk sn cn sec age]. simpl.
  destruct (decide (bk = "")) as [Hbk|Hbk].
  - destruct (generateRandomKey 16 rnd) as [k r]. simpl.
    destruct (decide (sn = "")) as [Hsn|Hsn].
    + destruct (generateRandomKey 20 r) as [n r']. simpl.
      by destruct (aes.NewCipher k) as [b [e|]].
    + simpl. by destruct (aes.NewCipher k) as [b [e|]].
  - simpl. destruct (decide (sn = "")) as [Hsn|Hsn].
    + destruct (generateRandomKey 20 rnd) as [n r']. simpl.
      by destruct (aes.NewCipher bk) as [b [e|]].
    + simpl. by destruct (aes.NewCipher bk) as [b [e|]].
Qed.

(** C5.  [SessionInit] returns the error of [json.Unmarshal] when the
    payload does not parse.  When it parses, the provider holds the
    parsed configuration in which an empty [BlockKey] has been replaced
    by the 16 bytes drawn from the key generator and an empty
    [SecurityName] by the 20 bytes drawn next; the result is the error of
    [aes.NewCipher] on that block key when the key is rejected, and
    otherwise it is nil, the cipher is the one built from that key and the
    first argument is stored as [maxlifetime].  A generated block key of
    16 bytes is never rejected. *)
Theorem SessionInit_contract pder ml json rnd :
  let parsed := Unmarshal json zero_cookieConfig in
  let r := Init pder ml json rnd in
  let rnd1 := if decide (BlockKey parsed.1 = "")
              then (generateRandomKey 16 rnd).2 else rnd in
  let cfg :=
    {| SecurityKey := SecurityKey parsed.1;
       BlockKey := if decide (BlockKey parsed.1 = "")
                   then (generateRandomKey 16 rnd).1 else BlockKey parsed.1;
       SecurityName := if decide (SecurityName parsed.1 = "")
                       then (generateRandomKey 20 rnd1).1
                       else SecurityName parsed.1;
       CookieName := CookieName parsed.1;
       Secure := Secure parsed.1;
       Maxage := Maxage parsed.1 |} in
  (∀ e, parsed.2 = Some e →
     r.2 = Some e ∧ maxlifetime r.1.1 = maxlifetime pder ∧ block r.1.1 = block pder)
  ∧ (parsed.2 = None → config r.1.1 = Some cfg)
  ∧ (∀ e, parsed.2 = None → (aes.NewCipher (BlockKey cfg)).2 = Some e →
       r.2 = Some (KeySizeError (String.length (BlockKey cfg)))
       ∧ maxlifetime r.1.1 = maxlifetime pder)
  ∧ (r.2 = None →
       parsed.2 = None
       ∧ config r.1.1 = Some cfg
       ∧ block r.1.1 = Some {| aes.key := BlockKey cfg |}
       ∧ maxlifetime r.1.1 = ml)
  ∧ (parsed.2 = None → BlockKey parsed.1 = "" →
       String.length (generateRandomKey 16 rnd).1 = 16%nat →
       r.2 = None).
Proof.
  intros parsed r rnd1 cfg.
  destruct (Unmarshal json zero_cookieConfig) as [cfg0 perr] eqn:Hparse.
  destruct perr as [pe|].
  - assert (Hr : r = ({| maxlifetime := maxlifetime pder; config := Some cfg0;
                         block := block pder |}, rnd, Some pe)).
    { subst r. unfold SessionInit. by rewrite Hparse. }
    subst parsed. simpl in *. rewrite Hr. simpl.
    split; [by intros e [= <-]|]. by repeat split.
  - pose proof (SessionInit_parsed pder ml json rnd cfg0 Hparse) as Hr.
    simpl in Hr. subst parsed. simpl in *. fold rnd1 in Hr. fold cfg in Hr.
    fold r in Hr. rewrite Hr. simpl.
    split; [done|]. split; [done|]. split; [|split].
    + intros e _ He. rewrite (NewCipher_rejects _ _ He). done.
    + intros He. rewrite (NewCipher_accepts _ He). done.
    + intros _ Hbk Hlen. rewrite NewCipher_16; [done|].
      subst cfg. simpl. by rewrite decide_True.
Qed.

End ProviderFacts.

Section ReleaseFacts.

Variable encode :
  option aes.Block → string → string → gomap → string * option error.
Variable QueryEscape : string → string.

(** Before any [SessionInit] there is no configuration to release with. *)
Lemma SessionRelease_unconfigured st w :
  ∃ msg, SessionRelease encode QueryEscape cookiepder0 st w = Panic msg.
Proof. unfold SessionRelease. simpl. eauto. Qed.

(** C4.  With a configuration [cfg] in the package-level provider,
    [SessionRelease] returns normally.  When [encodeCookie] of the store's
    map succeeds with string [str], one cookie is added to the response,
    after those already there: its name is [CookieName cfg], its value
    the escaped [str], its path "/", [HttpOnly] is set, [Secure] is
    [Secure cfg] and [MaxAge] is [Maxage cfg].  When [encodeCookie]
    returns an error the response is left as it was. *)
Theorem SessionRelease_cookie cookiepder cfg st (w : http.ResponseWriter) :
  config cookiepder = Some cfg →
  let r := encode (block cookiepder) (SecurityKey cfg) (SecurityName cfg)
             (values st) in
  (r.2 = None →
     SessionRelease encode QueryEscape cookiepder st w
     = Done (w ++ [ {| http.Name := CookieName cfg;
                       http.Value := QueryEscape r.1;
                       http.Path := "/";
                       http.Domain := "";
                       http.MaxAge := Maxage cfg;
                       http.Secure := Secure cfg;
                       http.HttpOnly := true |} ])%list)
  ∧ (is_Some r.2 → SessionRelease encode QueryEscape cookiepder st w = Done w).
Proof.
  intros Hc r. unfold SessionRelease. rewrite Hc. fold r.
  destruct r as [str [e|]]; simpl; split; try done.
Qed.

End ReleaseFacts.

(** ** The secure-cookie codec *)

Section CodecFacts.

Import SecureCookie.

Variable P : primitives.



(** A cookie that fails one of the two tests is invalid. *)
Lemma decodeCookie_rejects now blk key name cookie maxAge :
  authenticated P key name cookie = false
  ∨ unexpired P now cookie maxAge = false →
  ∃ e, decodeCookie P now blk key name cookie maxAge = (None, Some e).
Proof.
  unfold authenticated, unexpired, decodeCookie.
  destruct (unpack P cookie) as [[[ts tag] c]|]; [|by eauto].
  intros [H|H]; rewrite H; [by eauto|].
  destruct (bool_decide (mac P key name ts c = tag)); eauto.
Qed.

(** It is invalid one second past the window. *)
Lemma decodeCookie_expired T tag c blk key name maxAge :
  unpack P (pack P T tag c) = Some (T, tag, c) →
  ∃ e, decodeCookie P (T + maxAge + 1) blk key name (pack P T tag c) maxAge
       = (None, Some e).
Proof.
  intros Hu. apply decodeCookie_rejects. right.
  unfold unexpired. rewrite Hu. apply bool_decide_eq_false. lia.
Qed.

Lemma encodeCookie_succeeds T iv blk key name vals str :
  encodeCookie P T iv blk key name vals = (str, None) →
  ∃ bk b c,
    blk = Some bk
    ∧ serialize P (contents vals) = Some b
    ∧ encrypt P bk iv b = Some c
    ∧ str = pack P T (mac P key name T c) c.
Proof.
  unfold encodeCookie.
  destruct (serialize P (contents vals)) as [b|]; [|done].
  destruct blk as [bk|]; [|done]. simpl.
  destruct (encrypt P bk iv b) as [c|] eqn:Hc; [|done].
  intros [= <-]. by exists bk, b, c.
Qed.



Hypothesis laws : lawful P.

Lemma decodeCookie_encodeCookie T iv now blk key name vals str maxAge :
  encodeCookie P T iv blk key name vals = (str, None) →
  now - T ≤ maxAge →
  decodeCookie P now blk key name str maxAge = (Some (contents vals), None).
Proof.
  intros (bk & b & c & -> & Hs & He & ->)%encodeCookie_succeeds Hage.
  unfold decodeCookie. rewrite (unpack_pack P laws).
  rewrite !bool_decide_eq_true_2 by done. simpl.
  rewrite (decrypt_encrypt P laws _ _ _ _ He). simpl.
  by rewrite (deserialize_serialize P laws _ _ Hs).
Qed.

(** C1.  Let [str] be the string [encodeCookie] returns at time [T] for a
    map it can encode.  Decoded with the same cipher, security key and
    security name at a time [now] with [now - T <= maxAge],
    it gives back the mapping that was encoded, with a nil error; this
    holds at time [T + maxAge - 1] in particular, and [SessionRead] of
    [str] on a provider holding that cipher, key and name, with [maxAge]
    as its [maxlifetime], returns a store with that mapping. *)
Theorem codec_round_trip T iv blk key name vals str maxAge :
  encodeCookie P T iv blk key name vals = (str, None) →
  (∀ now, now - T ≤ maxAge →
     decodeCookie P now blk key name str maxAge = (Some (contents vals), None))
  ∧ decodeCookie P (T + maxAge - 1) blk key name str maxAge
    = (Some (contents vals), None)
  ∧ (∀ now pder cfg,
       now - T ≤ maxAge →
       config pder = Some cfg → block pder = blk →
       SecurityKey cfg = key → SecurityName cfg = name →
       maxlifetime pder = maxAge →
       SessionRead (decodeCookie P now) pder str
       = Done (Some {| sid := str; values := Some (contents vals) |}, None)).
Proof.
  intros Henc. split; [|split].
  - intros now Hage. by eapply decodeCookie_encodeCookie.
  - eapply decodeCookie_encodeCookie; [done|lia].
  - intros now pder cfg Hage Hc <- <- <- <-.
    rewrite (SessionRead_configured _ _ _ _ Hc).
    by rewrite (decodeCookie_encodeCookie _ _ _ _ _ _ _ _ _ Henc Hage).
Qed.

End CodecFacts.

Section FailClosed.

Import SecureCookie.

Variable P : primitives.


End FailClosed.

(** ** The plain instance, and the development run on it *)

Lemma pos_of_bits_of_pos (p : positive) : Plain.pos_of_bits (Plain.bits_of_pos p) = p.
Proof. induction p as [q IH|q IH|]; simpl; by rewrite ?IH. Qed.

Lemma strip_append (iv b : string) : Plain.strip (String.length iv) (iv +:+ b) = Some b.
Proof. induction iv as [|c iv IH]; simpl; done. Qed.

Lemma open_seal blk iv b c : Plain.seal blk iv b = Some c → Plain.open blk c = Some b.
Proof.
  unfold Plain.seal, Plain.open.
  destruct (Nat.eqb_spec (String.length iv) Plain.BlockSize) as [Hlen|]; [|done].
  intros [= <-]. rewrite <- Hlen. apply strip_append.
Qed.

Lemma prims_lawful : SecureCookie.lawful Plain.prims.
Proof.
  split; simpl.
  - intros V b [= <-]. by rewrite pos_of_bits_of_pos, decode_encode.
  - apply open_seal.
  - intros ts tag c. by rewrite pos_of_bits_of_pos, decode_encode.
Qed.

Example cookie_decodes_in_window :
  SecureCookie.decodeCookie Plain.prims 1060 Plain.cipher "k1" "s" Plain.cookie 60
  = (Plain.session, None).
Proof. vm_compute. reflexivity. Qed.

Example cookie_expires :
  SecureCookie.decodeCookie Plain.prims 1061 Plain.cipher "k1" "s" Plain.cookie 60
  = (None, Some (DecodeError "expired timestamp")).
Proof. vm_compute. reflexivity. Qed.

Example cookie_under_another_key :
  SecureCookie.decodeCookie Plain.prims 1001 Plain.cipher "k2" "s" Plain.cookie 60
  = (None, Some (DecodeError "the value is not valid")).
Proof. vm_compute. reflexivity. Qed.

Example cookie_with_a_byte_added :
  SecureCookie.authenticated Plain.prims "k1" "s" (String "0"%char Plain.cookie) = false.
Proof. vm_compute. reflexivity. Qed.

Lemma codec_round_trip_witness :
  SecureCookie.encodeCookie Plain.prims 1000 Plain.iv Plain.cipher "k1" "s" Plain.session
  = (Plain.cookie, None)
  ∧ SecureCookie.decodeCookie Plain.prims (1000 + 60 - 1) Plain.cipher "k1" "s"
      Plain.cookie 60
    = (Some {[ IString "uid" := IString "42" ]}, None).
Proof.
  assert (H : SecureCookie.encodeCookie Plain.prims 1000 Plain.iv Plain.cipher
                "k1" "s" Plain.session = (Plain.cookie, None)) by reflexivity.
  split; [exact H|].
  exact (proj1 (proj2 (codec_round_trip Plain.prims prims_lawful 1000 Plain.iv
                         Plain.cipher "k1" "s" Plain.session Plain.cookie 60 H))).
Defined.



Lemma SessionRead_total_witness :
  ∃ st,
    SessionRead (SecureCookie.decodeCookie Plain.prims 1000) Plain.pder ""
    = Done (Some st, None)
    ∧ SessionID st = ""
    ∧ values st = Some ∅.
Proof.
  destruct (SessionRead_total (SecureCookie.decodeCookie Plain.prims 1000)
              Plain.pder _ "" eq_refl) as (st & H1 & H2 & _ & _ & H3).
  exists st. split; [exact H1|]. split; [exact H2|].
  apply H3. reflexivity.
Defined.

Lemma SessionRelease_cookie_witness :
  SessionRelease (SecureCookie.encodeCookie Plain.prims 1000 Plain.iv) (λ s, s)
    Plain.pder {| sid := ""; values := Plain.session |} []
  = Done [ {| http.Name := "sess"; http.Value := Plain.cookie; http.Path := "/";
              http.Domain := ""; http.MaxAge := 3600; http.Secure := false;
              http.HttpOnly := true |} ].
Proof.
  apply (SessionRelease_cookie (SecureCookie.encodeCookie Plain.prims 1000 Plain.iv)
           (λ s, s) Plain.pder _ {| sid := ""; values := Plain.session |} [] eq_refl).
  reflexivity.
Defined.

Lemma SessionInit_contract_witness :
  (SessionInit Plain.Unmarshal Plain.generateRandomKey cookiepder0 60 "{}" 0%nat).2 = None.
Proof.
  apply (SessionInit_contract Plain.Unmarshal Plain.generateRandomKey
           cookiepder0 60 "{}" 0%nat); reflexivity.
Defined.

Lemma SessionRead_max_age_witness :
  maxlifetime
    (SessionInit Plain.Unmarshal Plain.generateRandomKey
       (SessionInit Plain.Unmarshal Plain.generateRandomKey cookiepder0 60 "{}" 0%nat).1.1
       99 "{" 2%nat).1.1
  = 60.
Proof.
  refine (proj1 (SessionRead_max_age Plain.Unmarshal Plain.generateRandomKey
                   (SecureCookie.decodeCookie Plain.prims 1000)
                   cookiepder0 60 "{}" 0%nat _ 2%nat _ "" eq_refl _)).
  eapply (failed_inits_cons _ _ _ 99 "{" 2%nat); [reflexivity|]. apply failed_inits_nil.
Defined.


(** * Further properties of the store and of the provider *)

(** ** Runs of store operations *)

(** A run on an allocated map, computed on the map alone. *)
Lemma run_ops_foldl st m (ops : list store_op) :
  values st = Some m →
  run_ops st ops
  = Done ({| sid := sid st; values := Some (foldl map_op m ops) |},
          replicate (length ops) None).
Proof.
  revert st m. induction ops as [|o ops IH]; intros st m Hm.
  - simpl. destruct st as [s vs]. simpl in Hm. by subst vs.
  - destruct o as [key value|key|]; simpl.
    + rewrite (Set_allocated _ _ _ _ Hm).
      by rewrite (IH {| sid := sid st; values := Some (<[key := value]> m) |}
                    (<[key := value]> m) eq_refl).
    + rewrite Hm. simpl.
      by rewrite (IH {| sid := sid st; values := Some (delete key m) |}
                    (delete key m) eq_refl).
    + by rewrite (IH {| sid := sid st; values := Some ∅ |} ∅ eq_refl).
Qed.

(** X1.  On a store whose map is allocated, any run of [Set], [Delete] and
    [Flush] calls ends without a panic; every call returns a nil error, the
    identifier is the one the store started with, and the map is the one
    obtained by applying the calls, in order, as insertions, deletions and
    resets to the map the store started with. *)
Theorem run_ops_allocated st m (ops : list store_op) :
  values st = Some m →
  ∃ st' es,
    run_ops st ops = Done (st', es)
    ∧ Forall (λ e, e = None) es
    ∧ length es = length ops
    ∧ SessionID st' = SessionID st
    ∧ values st' = Some (foldl map_op m ops).
Proof.
  intros Hm. eexists _, _. split; [by apply run_ops_foldl|].
  split; [apply Forall_replicate; done|].
  split; [apply length_replicate|]. done.
Qed.

Lemma run_ops_allocated_witness :
  ∃ st' es,
    run_ops {| sid := "s"; values := Some ∅ |}
      [OpSet (IString "a") (IInt 1); OpSet (IString "b") (IInt 2);
       OpDelete (IString "a"); OpSet (IString "b") (IInt 3)]
    = Done (st', es)
    ∧ values st'
      = Some (<[IString "b" := IInt 3]>
                (delete (IString "a")
                   (<[IString "b" := IInt 2]> (<[IString "a" := IInt 1]> ∅)))).
Proof.
  destruct (run_ops_allocated {| sid := "s"; values := Some ∅ |} ∅
              [OpSet (IString "a") (IInt 1); OpSet (IString "b") (IInt 2);
               OpDelete (IString "a"); OpSet (IString "b") (IInt 3)] eq_refl)
    as (st' & es & H1 & _ & _ & _ & H2).
  exists st', es. split; [exact H1 | exact H2].
Defined.

(** X2.  On a store whose map is nil, a run of calls panics exactly when a
    [Set] comes before the first [Flush]: [Delete] leaves the nil map in
    place, [Flush] allocates a map, and from then on nothing panics. *)
Theorem run_ops_nil_map st (ops : list store_op) :
  values st = None →
  (∀ pre key value post,
     ops = (pre ++ OpSet key value :: post)%list →
     Forall (λ o, ∃ key', o = OpDelete key') pre →
     ∃ msg, run_ops st ops = Panic msg)
  ∧ (∀ pre post,
       ops = (pre ++ OpFlush :: post)%list →
       Forall (λ o, ∃ key', o = OpDelete key') pre →
       run_ops st ops
       = Done ({| sid := sid st; values := Some (foldl map_op ∅ post) |},
               replicate (length ops) None))
  ∧ (Forall (λ o, ∃ key', o = OpDelete key') ops →
     run_ops st ops = Done (st, replicate (length ops) None)).
Proof.
  intros Hnil.
  assert (Hdel : ∀ pre rest,
            Forall (λ o, ∃ key', o = OpDelete key') pre →
            run_ops st (pre ++ rest)%list
            = match run_ops st rest with
              | Panic msg => Panic msg
              | Done (st', es) => Done (st', (replicate (length pre) None ++ es)%list)
              end).
  { intros pre rest Hpre. induction Hpre as [|o pre [key' ->] _ IH]; simpl.
    - by destruct (run_ops st rest) as [[st' es]|].
    - replace {| sid := sid st; values := delete key' <$> values st |} with st
        by (destruct st as [s vs]; simpl in *; by subst vs).
      rewrite IH. by destruct (run_ops st rest) as [[st' es]|]. }
  split; [|split].
  - intros pre key value post -> Hpre. rewrite (Hdel _ _ Hpre). simpl.
    unfold Set_. rewrite Hnil. eauto.
  - intros pre post -> Hpre. rewrite (Hdel _ _ Hpre). simpl.
    rewrite (run_ops_foldl {| sid := sid st; values := Some ∅ |} ∅ post eq_refl).
    simpl. f_equal. f_equal.
    rewrite length_app. simpl. rewrite replicate_add. done.
  - intros Hall. pose proof (Hdel ops [] Hall) as H.
    rewrite app_nil_r in H. rewrite H. simpl. by rewrite app_nil_r.
Qed.

Lemma run_ops_nil_map_witness :
  ∃ msg,
    run_ops {| sid := "s"; values := None |}
      [OpDelete (IString "a"); OpSet (IString "a") (IInt 1); OpFlush]
    = Panic msg.
Proof.
  exact (proj1 (run_ops_nil_map {| sid := "s"; values := None |}
                  [OpDelete (IString "a"); OpSet (IString "a") (IInt 1); OpFlush]
                  eq_refl)
           [OpDelete (IString "a")] (IString "a") (IInt 1) [OpFlush] eq_refl
           (Forall_cons_2 _ _ _ (ex_intro _ (IString "a") eq_refl) (Forall_nil_2 _))).
Defined.

(** ** How the store operations combine *)

(** X3.  On a store whose map is allocated, a second [Set] of the same key
    overwrites the first, so that the two calls leave the store that the
    second call alone would leave; and two [Set] calls on different keys
    leave the same store in either order. *)
Theorem Set_Set_law st m k1 k2 v1 v2 :
  values st = Some m →
  (∃ st', run_ops st [OpSet k1 v1; OpSet k1 v2] = Done (st', [None; None])
          ∧ run_ops st [OpSet k1 v2] = Done (st', [None]))
  ∧ (k1 ≠ k2 →
     ∃ st', run_ops st [OpSet k1 v1; OpSet k2 v2] = Done (st', [None; None])
            ∧ run_ops st [OpSet k2 v2; OpSet k1 v1] = Done (st', [None; None])).
Proof.
  intros Hm. split.
  - eexists. rewrite !(run_ops_foldl _ _ _ Hm). simpl.
    by rewrite insert_insert_eq.
  - intros Hk. eexists. rewrite !(run_ops_foldl _ _ _ Hm). simpl.
    split; [reflexivity|]. by rewrite (insert_insert_ne _ k1 k2).
Qed.

Lemma Set_Set_law_witness :
  ∃ st',
    run_ops {| sid := "s"; values := Some ∅ |}
      [OpSet (IString "a") (IInt 1); OpSet (IString "b") (IInt 2)]
    = Done (st', [None; None])
    ∧ run_ops {| sid := "s"; values := Some ∅ |}
        [OpSet (IString "b") (IInt 2); OpSet (IString "a") (IInt 1)]
      = Done (st', [None; None]).
Proof.
  apply (Set_Set_law {| sid := "s"; values := Some ∅ |} ∅
           (IString "a") (IString "b") (IInt 1) (IInt 2) eq_refl).
  discriminate.
Defined.

(** X4.  On a store whose map is allocated, [Set] of a key followed by
    [Delete] of that key leaves the store that [Delete] alone would leave,
    which is the store itself when the key was not bound; and [Delete] of a
    key followed by [Set] of that key leaves the store that [Set] alone
    would leave. *)
Theorem Set_Delete_law st m k v :
  values st = Some m →
  (∃ st', run_ops st [OpSet k v; OpDelete k] = Done (st', [None; None])
          ∧ run_ops st [OpDelete k] = Done (st', [None])
          ∧ (m !! k = None → st' = st))
  ∧ (∃ st', run_ops st [OpDelete k; OpSet k v] = Done (st', [None; None])
            ∧ run_ops st [OpSet k v] = Done (st', [None])).
Proof.
  intros Hm. split.
  - eexists. rewrite !(run_ops_foldl _ _ _ Hm). simpl.
    rewrite delete_insert_eq. split; [reflexivity|]. split; [reflexivity|].
    intros Hk. rewrite (delete_id _ _ Hk). destruct st as [s vs]. simpl in *.
    by subst vs.
  - eexists. rewrite !(run_ops_foldl _ _ _ Hm). simpl.
    by rewrite insert_delete_eq.
Qed.

Lemma Set_Delete_law_witness :
  run_ops {| sid := "s"; values := Some {[ IInt 1 := IBool true ]} |}
    [OpSet (IInt 2) INil; OpDelete (IInt 2)]
  = Done ({| sid := "s"; values := Some {[ IInt 1 := IBool true ]} |}, [None; None]).
Proof.
  destruct (proj1 (Set_Delete_law
                     {| sid := "s"; values := Some {[ IInt 1 := IBool true ]} |}
                     {[ IInt 1 := IBool true ]} (IInt 2) INil eq_refl))
    as (st' & H1 & _ & H2).
  rewrite H1. rewrite H2; reflexivity.
Defined.

(** X5.  On any store, the nil-map one included, a second [Delete] of the
    same key changes nothing, and two [Delete] calls on different keys leave
    the same store in either order. *)
Theorem Delete_Delete_law st k1 k2 :
  (Delete (Delete st k1).1 k1).1 = (Delete st k1).1
  ∧ (Delete (Delete st k1).1 k2).1 = (Delete (Delete st k2).1 k1).1.
Proof.
  destruct st as [s [m|]]; simpl; [|done].
  by rewrite delete_delete_eq, (delete_delete m k2 k1).
Qed.

Lemma run_ops_sid st (ops : list store_op) st' es :
  run_ops st ops = Done (st', es) → sid st' = sid st.
Proof.
  revert st st' es. induction ops as [|o ops IH]; intros st st' es; simpl.
  - by intros [= <- _].
  - destruct (apply_op st o) as [[st1 e]|] eqn:Ho; [|done].
    destruct (run_ops st1 ops) as [[st2 es2]|] eqn:Hr; [|done].
    intros [= <- _]. rewrite (IH _ _ _ Hr).
    destruct o as [key value|key|]; simpl in Ho.
    + unfold Set_ in Ho. destruct (values st); [|done]. by injection Ho as <- _.
    + by injection Ho as <- _.
    + by injection Ho as <- _.
Qed.

(** X6.  Whatever calls were run on a store before, and whether or not its
    map was allocated, the run keeps the identifier of the store, and a
    [Flush] after it leaves the store that a [Flush] of the store as it
    started would leave: the identifier with a fresh, empty map. *)
Theorem Flush_absorbs st (ops : list store_op) st' es :
  run_ops st ops = Done (st', es) →
  SessionID st' = SessionID st
  ∧ (Flush st').1 = (Flush st).1
  ∧ run_ops st (ops ++ [OpFlush])%list
    = Done ({| sid := sid st; values := Some ∅ |}, (es ++ [None])%list).
Proof.
  intros Hr. pose proof (run_ops_sid _ _ _ _ Hr) as Hs.
  split; [exact Hs|]. split; [simpl; by rewrite Hs|].
  revert st st' es Hr Hs. induction ops as [|o ops IH]; intros st st' es; simpl.
  - by intros [= <- <-].
  - destruct (apply_op st o) as [[st1 e]|] eqn:Ho; [|done].
    destruct (run_ops st1 ops) as [[st2 es2]|] eqn:Hr; [|done].
    intros [= <- <-] Hs.
    pose proof (run_ops_sid _ _ _ _ Hr) as Hs1.
    rewrite (IH _ _ _ Hr Hs1). simpl. by rewrite <- Hs1, Hs.
Qed.

Lemma Flush_absorbs_witness :
  (Flush {| sid := "s"; values := None |}).1
  = (Flush {| sid := "s"; values := None |}).1
  ∧ run_ops {| sid := "s"; values := None |} [OpDelete INil; OpFlush]
    = Done ({| sid := "s"; values := Some ∅ |}, [None; None]).
Proof.
  exact (proj2 (Flush_absorbs {| sid := "s"; values := None |} [OpDelete INil]
                  {| sid := "s"; values := None |} [None] eq_refl)).
Defined.

(** ** The provider across calls *)

Section ProviderLifeCycle.

Context {entropy : Type}.
Variable Unmarshal : string → cookieConfig → cookieConfig * option error.
Variable generateRandomKey : nat → entropy → string * entropy.
Variable decode :
  option aes.Block → string → string → string → Z → gomap * option error.
Variable encode :
  option aes.Block → string → string → gomap → string * option error.
Variable QueryEscape : string → string.

Local Abbreviation Init := (SessionInit Unmarshal generateRandomKey).
Local Abbreviation Read := (SessionRead decode).
Local Abbreviation Release := (SessionRelease encode QueryEscape).

(** The block key [SessionInit] hands to [aes.NewCipher]. *)
Local Abbreviation resolved_key cfg0 rnd :=
  (if decide (BlockKey cfg0 = "") then (generateRandomKey 16 rnd).1 else BlockKey cfg0).

Lemma NewCipher_nil_error_iff key :
  (aes.NewCipher key).2 = None
  ↔ String.length key = 16%nat ∨ String.length key = 24%nat
    ∨ String.length key = 32%nat.
Proof.
  unfold aes.NewCipher.
  destruct (Nat.eqb_spec (String.length key) 16);
    destruct (Nat.eqb_spec (String.length key) 24);
    destruct (Nat.eqb_spec (String.length key) 32); simpl;
    intuition congruence.
Qed.

(** X7.  [SessionInit] returns a nil error exactly when the payload parses
    and the block key in use, the parsed one or the 16 generated bytes when
    the parsed one is empty, is 16, 24 or 32 bytes long. *)
Theorem SessionInit_succeeds_iff pder ml json rnd :
  (Init pder ml json rnd).2 = None
  ↔ ∃ cfg0,
      Unmarshal json zero_cookieConfig = (cfg0, None)
      ∧ (String.length (resolved_key cfg0 rnd) = 16%nat
         ∨ String.length (resolved_key cfg0 rnd) = 24%nat
         ∨ String.length (resolved_key cfg0 rnd) = 32%nat).
Proof.
  destruct (Unmarshal json zero_cookieConfig) as [cfg0 [pe|]] eqn:Hparse.
  - split.
    + unfold SessionInit. by rewrite Hparse.
    + by intros (cfg0' & [=] & _).
  - rewrite (SessionInit_parsed Unmarshal generateRandomKey pder ml json rnd cfg0 Hparse). simpl.
    rewrite NewCipher_nil_error_iff. split.
    + intros H. by exists cfg0.
    + by intros (cfg0' & [= <-] & H).
Qed.

(** X8.  [SessionInit] draws from the key generator only for the fields the
    payload left empty: nothing when the payload does not parse or when it
    gives both a block key and a security name; otherwise 16 bytes for the
    block key, then 20 bytes for the security name from what the first draw
    left.  A block key that is then rejected does not undo the draws. *)
Theorem SessionInit_entropy pder ml json rnd :
  let parsed := Unmarshal json zero_cookieConfig in
  let rnd' := (Init pder ml json rnd).1.2 in
  (is_Some parsed.2 → rnd' = rnd)
  ∧ (parsed.2 = None →
     let rnd1 := if decide (BlockKey parsed.1 = "")
                 then (generateRandomKey 16 rnd).2 else rnd in
     rnd' = if decide (SecurityName parsed.1 = "")
            then (generateRandomKey 20 rnd1).2 else rnd1)
  ∧ (parsed.2 = None → BlockKey parsed.1 ≠ "" → SecurityName parsed.1 ≠ "" →
     rnd' = rnd).
Proof.
  intros parsed rnd'.
  destruct (Unmarshal json zero_cookieConfig) as [cfg0 [pe|]] eqn:Hparse;
    subst parsed; simpl.
  - split; [|split]; try done.
    intros _. subst rnd'. unfold SessionInit. by rewrite Hparse.
  - pose proof (SessionInit_parsed Unmarshal generateRandomKey pder ml json rnd cfg0 Hparse) as Hr.
    simpl in Hr. subst rnd'. rewrite Hr. simpl.
    split; [by intros [? [=]]|]. split; [done|].
    intros _ Hbk Hsn. by rewrite !decide_False.
Qed.

(** X9.  A call of [SessionInit] that returns a nil error leaves a provider
    that does not depend on the provider it was called on: the cipher, the
    configuration and the maximum lifetime are all replaced. *)
Theorem SessionInit_overwrites pder pder' ml json rnd :
  (Init pder ml json rnd).2 = None →
  Init pder' ml json rnd = Init pder ml json rnd.
Proof.
  intros Hok.
  destruct (Unmarshal json zero_cookieConfig) as [cfg0 [pe|]] eqn:Hparse.
  - exfalso. revert Hok. unfold SessionInit. by rewrite Hparse.
  - revert Hok.
    rewrite (SessionInit_parsed Unmarshal generateRandomKey pder ml json rnd cfg0 Hparse),
            (SessionInit_parsed Unmarshal generateRandomKey pder' ml json rnd cfg0 Hparse).
    simpl. by intros ->.
Qed.

(** X10.  A call of [SessionInit] whose payload parses but whose block key
    is rejected leaves the provider with the new configuration, a nil
    cipher and the maximum lifetime it had: a cipher installed by an
    earlier call is gone, and [SessionRead] then hands [decodeCookie] a nil
    cipher. *)
Theorem SessionInit_rejected_key pder ml json rnd cfg0 e :
  Unmarshal json zero_cookieConfig = (cfg0, None) →
  (Init pder ml json rnd).2 = Some e →
  let pder' := (Init pder ml json rnd).1.1 in
  e = KeySizeError (String.length (resolved_key cfg0 rnd))
  ∧ block pder' = None
  ∧ maxlifetime pder' = maxlifetime pder
  ∧ ∃ cfg,
      config pder' = Some cfg
      ∧ BlockKey cfg = resolved_key cfg0 rnd
      ∧ SecurityKey cfg = SecurityKey cfg0
      ∧ ∀ sid',
          Read pder' sid'
          = Done (Some {| sid := sid';
                          values := Some (contents (decode None (SecurityKey cfg)
                                             (SecurityName cfg) sid'
                                             (maxlifetime pder)).1) |},
                  None).
Proof.
  intros Hparse. simpl.
  rewrite (SessionInit_parsed Unmarshal generateRandomKey pder ml json rnd cfg0 Hparse). simpl.
  intros He. pose proof (NewCipher_rejects _ _ He) as Hrej.
  rewrite Hrej in He |- *. simpl in He |- *.
  injection He as <-. split; [done|]. split; [done|]. split; [done|].
  eexists. split; [reflexivity|]. split; [done|]. split; [done|].
  intros sid'. by erewrite SessionRead_configured.
Qed.

(** X11.  A call of [SessionInit] whose payload does not parse still
    replaces the configuration, by whatever [json.Unmarshal] left in the
    fresh one, while the cipher and the maximum lifetime stay: from then on
    [SessionRead] decodes with the old cipher and maximum lifetime but with
    the security key and name of the new configuration. *)
Theorem SessionInit_unparsed pder ml json rnd cfg0 e :
  Unmarshal json zero_cookieConfig = (cfg0, Some e) →
  Init pder ml json rnd
  = ({| maxlifetime := maxlifetime pder; config := Some cfg0; block := block pder |},
     rnd, Some e)
  ∧ ∀ sid',
      Read (Init pder ml json rnd).1.1 sid'
      = Done (Some {| sid := sid';
                      values := Some (contents (decode (block pder) (SecurityKey cfg0)
                                         (SecurityName cfg0) sid'
                                         (maxlifetime pder)).1) |},
              None).
Proof.
  intros Hparse.
  assert (Hr : Init pder ml json rnd
               = ({| maxlifetime := maxlifetime pder; config := Some cfg0;
                     block := block pder |}, rnd, Some e)).
  { unfold SessionInit. by rewrite Hparse. }
  split; [exact Hr|]. intros sid'. rewrite Hr. simpl.
  by erewrite SessionRead_configured.
Qed.

End ProviderLifeCycle.

Lemma SessionInit_entropy_witness :
  (SessionInit (λ _ c, (set_SecurityName (set_BlockKey c "0123456789abcdef") "s", None))
     Plain.generateRandomKey cookiepder0 60 "{}" 7%nat).1.2
  = 7%nat.
Proof.
  apply (SessionInit_entropy
           (λ _ c, (set_SecurityName (set_BlockKey c "0123456789abcdef") "s", None))
           Plain.generateRandomKey cookiepder0 60 "{}" 7%nat); done.
Defined.

Lemma SessionInit_overwrites_witness :
  SessionInit Plain.Unmarshal Plain.generateRandomKey Plain.pder 60 "{}" 0%nat
  = SessionInit Plain.Unmarshal Plain.generateRandomKey cookiepder0 60 "{}" 0%nat.
Proof.
  apply (SessionInit_overwrites Plain.Unmarshal Plain.generateRandomKey
           cookiepder0 Plain.pder 60 "{}" 0%nat).
  reflexivity.
Defined.

Lemma SessionInit_rejected_key_witness :
  block (SessionInit (λ _ c, (set_BlockKey c "short", None))
           Plain.generateRandomKey Plain.pder 99 "{}" 0%nat).1.1 = None
  ∧ maxlifetime (SessionInit (λ _ c, (set_BlockKey c "short", None))
                   Plain.generateRandomKey Plain.pder 99 "{}" 0%nat).1.1 = 60.
Proof.
  destruct (SessionInit_rejected_key (λ _ c, (set_BlockKey c "short", None))
              Plain.generateRandomKey (SecureCookie.decodeCookie Plain.prims 0)
              Plain.pder 99 "{}" 0%nat _ (KeySizeError 5) eq_refl eq_refl)
    as (_ & H1 & H2 & _).
  split; [exact H1 | exact H2].
Defined.

Lemma SessionInit_unparsed_witness :
  config (SessionInit Plain.Unmarshal Plain.generateRandomKey Plain.pder 99 "{" 0%nat).1.1
  = Some zero_cookieConfig
  ∧ block (SessionInit Plain.Unmarshal Plain.generateRandomKey Plain.pder 99 "{" 0%nat).1.1
    = Plain.cipher.
Proof.
  rewrite (proj1 (SessionInit_unparsed Plain.Unmarshal Plain.generateRandomKey
                    (SecureCookie.decodeCookie Plain.prims 0)
                    Plain.pder 99 "{" 0%nat zero_cookieConfig
                    (SyntaxError "invalid character") eq_refl)).
  split; reflexivity.
Defined.

(** ** One request: read, update, release *)

Section RequestFacts.

Context {entropy : Type}.
Variable Unmarshal : string → cookieConfig → cookieConfig * option error.
Variable generateRandomKey : nat → entropy → string * entropy.
Variable decode :
  option aes.Block → string → string → string → Z → gomap * option error.
Variable encode :
  option aes.Block → string → string → gomap → string * option error.
Variable QueryEscape : string → string.

Local Abbreviation Init := (SessionInit Unmarshal generateRandomKey).
Local Abbreviation Read := (SessionRead decode).
Local Abbreviation Release := (SessionRelease encode QueryEscape).

(** The cookie [SessionRelease] builds from the configuration and the
    encoded string. *)
Local Abbreviation session_cookie cfg str :=
  {| http.Name := CookieName cfg; http.Value := QueryEscape str;
     http.Path := "/"; http.Domain := ""; http.MaxAge := Maxage cfg;
     http.Secure := Secure cfg; http.HttpOnly := true |}.

(** X13.  With a configuration in place, [SessionRelease] keeps the cookies
    already on the response and adds at most one after them, named by the
    configuration.  It does not replace a cookie it added before: two
    releases whose encodings succeed leave two cookies of the same name,
    the later one last. *)
Theorem SessionRelease_appends cookiepder cfg st1 st2 (w : http.ResponseWriter) :
  config cookiepder = Some cfg →
  (∃ w', SessionRelease encode QueryEscape cookiepder st1 w = Done w'
         ∧ (w' = w
            ∨ ∃ c, w' = (w ++ [c])%list ∧ http.Name c = CookieName cfg))
  ∧ ((encode (block cookiepder) (SecurityKey cfg) (SecurityName cfg) (values st1)).2
     = None →
     (encode (block cookiepder) (SecurityKey cfg) (SecurityName cfg) (values st2)).2
     = None →
     ∃ c1 c2,
       SessionRelease encode QueryEscape cookiepder st1 w = Done (w ++ [c1])%list
       ∧ SessionRelease encode QueryEscape cookiepder st2 (w ++ [c1])%list = Done (w ++ [c1; c2])%list
       ∧ http.Name c1 = CookieName cfg
       ∧ http.Name c2 = CookieName cfg).
Proof.
  intros Hc. split.
  - unfold SessionRelease. rewrite Hc.
    destruct (encode _ _ _ _) as [str [e|]].
    + exists w. split; [reflexivity|]. by left.
    + eexists. split; [reflexivity|]. right. eexists. split; [reflexivity|]. done.
  - unfold SessionRelease. rewrite Hc.
    destruct (encode _ _ _ (values st1)) as [str1 [e1|]]; [done|].
    destruct (encode _ _ _ (values st2)) as [str2 [e2|]]; [done|].
    intros _ _. exists (session_cookie cfg str1), (session_cookie cfg str2).
    split; [reflexivity|]. split; [|done].
    unfold http.SetCookie. by rewrite <- app_assoc.
Qed.

(** X14.  [SessionRead] looks at the cipher, at the maximum lifetime and at
    the security key and name of the configuration, and at nothing else of
    the provider.  [SessionRelease] looks at the cipher and at every field
    of the configuration but the block key, and at the map of the store:
    neither the maximum lifetime of the provider nor the identifier of the
    store has a part in it. *)
Theorem provider_fields_read p1 p2 c1 c2 sid' st1 st2 (w : http.ResponseWriter) :
  config p1 = Some c1 → config p2 = Some c2 →
  block p1 = block p2 →
  SecurityKey c1 = SecurityKey c2 → SecurityName c1 = SecurityName c2 →
  (maxlifetime p1 = maxlifetime p2 → SessionRead decode p1 sid' = SessionRead decode p2 sid')
  ∧ (CookieName c1 = CookieName c2 → Secure c1 = Secure c2 →
     Maxage c1 = Maxage c2 → values st1 = values st2 →
     SessionRelease encode QueryEscape p1 st1 w = SessionRelease encode QueryEscape p2 st2 w).
Proof.
  intros H1 H2 Hb Hk Hn. split.
  - intros Hml. unfold SessionRead. by rewrite H1, H2, Hb, Hk, Hn, Hml.
  - intros Hcn Hs Hma Hv. unfold SessionRelease.
    by rewrite H1, H2, Hb, Hk, Hn, Hcn, Hs, Hma, Hv.
Qed.

(** X15.  One request on a provider that [SessionInit] set up with a nil
    error: the cipher is the one of the configured block key;
    [SessionRead] of the incoming string gives a store; [Set] of a key on
    that store returns a nil error and [Get] then returns the value; and
    [SessionRelease] hands [encodeCookie] the decoded mapping with that one
    binding added, under the same cipher, security key and name that
    [decodeCookie] was given, and adds the cookie of the encoded string to
    the response, or leaves the response as it was when encoding fails. *)
Theorem request_life_cycle pder ml json rnd p rnd' sid' k v (w : http.ResponseWriter) :
  Init pder ml json rnd = (p, rnd', None) →
  ∃ cfg st st',
    config p = Some cfg
    ∧ block p = Some {| aes.key := BlockKey cfg |}
    ∧ Read p sid' = Done (Some st, None)
    ∧ contents (values st)
      = contents (decode (block p) (SecurityKey cfg) (SecurityName cfg) sid' ml).1
    ∧ Set_ st k v = Done (st', None)
    ∧ Get st' k = v
    ∧ SessionID st' = sid'
    ∧ Release p st' w
      = Done (match encode (block p) (SecurityKey cfg) (SecurityName cfg)
                      (Some (<[k := v]> (contents (values st)))) with
              | (str, None) => (w ++ [session_cookie cfg str])%list
              | (_, Some _) => w
              end).
Proof.
  intros Hinit.
  destruct (Unmarshal json zero_cookieConfig) as [cfg0 [pe|]] eqn:Hparse.
  { exfalso. revert Hinit. unfold SessionInit. by rewrite Hparse. }
  rewrite (SessionInit_parsed Unmarshal generateRandomKey pder ml json rnd cfg0 Hparse)
    in Hinit. simpl in Hinit.
  injection Hinit as <- _ Hnil. rewrite (NewCipher_accepts _ Hnil). simpl.
  eexists _, _, _. split; [reflexivity|]. split; [reflexivity|].
  split; [by erewrite SessionRead_configured|]. simpl.
  split; [reflexivity|]. split; [reflexivity|].
  split; [rewrite Get_lookup; simpl; by rewrite lookup_insert_eq|].
  split; [done|].
  unfold SessionRelease. simpl.
  by destruct (encode _ _ _ _) as [str [e|]].
Qed.

End RequestFacts.

Lemma SessionRelease_appends_witness :
  ∃ w',
    SessionRelease (SecureCookie.encodeCookie Plain.prims 1000 Plain.iv) (λ s, s)
      Plain.pder {| sid := ""; values := None |} []
    = Done w'
    ∧ (w' = [] ∨ ∃ c, w' = ([] ++ [c])%list ∧ http.Name c = "sess").
Proof.
  exact (proj1 (SessionRelease_appends
                  (SecureCookie.encodeCookie Plain.prims 1000 Plain.iv) (λ s, s)
                  Plain.pder _ {| sid := ""; values := None |}
                  {| sid := ""; values := None |} [] eq_refl)).
Defined.

Lemma provider_fields_read_witness :
  SessionRead (SecureCookie.decodeCookie Plain.prims 1001) Plain.pder Plain.cookie
  = SessionRead (SecureCookie.decodeCookie Plain.prims 1001)
      {| maxlifetime := 60;
         config := Some {| SecurityKey := "k1"; BlockKey := "";
                           SecurityName := "s"; CookieName := "other";
                           Secure := true; Maxage := 0 |};
         block := Plain.cipher |}
      Plain.cookie.
Proof.
  apply (provider_fields_read (SecureCookie.decodeCookie Plain.prims 1001)
           (SecureCookie.encodeCookie Plain.prims 1000 Plain.iv) (λ s, s)
           Plain.pder
           {| maxlifetime := 60;
              config := Some {| SecurityKey := "k1"; BlockKey := "";
                                SecurityName := "s"; CookieName := "other";
                                Secure := true; Maxage := 0 |};
              block := Plain.cipher |}
           _ _ Plain.cookie {| sid := ""; values := None |}
           {| sid := ""; values := None |} [] eq_refl eq_refl eq_refl eq_refl eq_refl).
  reflexivity.
Defined.

Lemma request_life_cycle_witness :
  ∃ cfg st st',
    config (SessionInit Plain.Unmarshal Plain.generateRandomKey cookiepder0 60 "{}"
              0%nat).1.1 = Some cfg
    ∧ SessionRead (SecureCookie.decodeCookie Plain.prims 1000)
        (SessionInit Plain.Unmarshal Plain.generateRandomKey cookiepder0 60 "{}"
           0%nat).1.1 ""
      = Done (Some st, None)
    ∧ Set_ st (IString "uid") (IString "42") = Done (st', None)
    ∧ Get st' (IString "uid") = IString "42".
Proof.
  destruct (request_life_cycle Plain.Unmarshal Plain.generateRandomKey
              (SecureCookie.decodeCookie Plain.prims 1000)
              (SecureCookie.encodeCookie Plain.prims 1000 Plain.iv) (λ s, s)
              cookiepder0 60 "{}" 0%nat _ _ "" (IString "uid") (IString "42") []
              eq_refl)
    as (cfg & st & st' & H1 & _ & H2 & _ & H3 & H4 & _).
  exists cfg, st, st'. split; [exact H1|]. split; [exact H2|].
  split; [exact H3 | exact H4].
Defined.
